(** * ubn::ringbuffer : a fixed-capacity FIFO ring buffer

    Shallow embedding of [src/include/ringbuffer.hpp] and proofs of the
    properties its specification states.

    - [std::size_t] is modelled as [Z] with its wrap-around modulo [2^64]
      written out ([wrap]).
    - The heap array [p_buffer] is a [list T]; the value-initialised element
      [T{}] is [value_init] of the class [DefaultConstructible].  Indexing
      outside of the allocated storage is undefined behaviour in C++: the
      model makes every array access checked and returns [None] there, so a
      result [Some _] also says that the access was in bounds.
    - The template parameter [capacity] is an argument of every operation. *)

From stdpp Require Import base numbers option list.

Local Open Scope Z_scope.

(** ** Machine integers *)

(** Number of values of [std::size_t] (LP64: 64 bits). *)
Definition SIZE_MOD : Z := 18446744073709551616.

(** Unsigned arithmetic is taken modulo [SIZE_MOD]. *)
Definition wrap (x : Z) : Z := x mod SIZE_MOD.

(** ** Data model *)

(** The element type must be default-constructible: [new T[n]{}]
    value-initialises every slot. *)
Class DefaultConstructible (T : Type) : Type := value_init : T.

(** [int{}] is [0]. *)
#[global] Instance Z_default_constructible : DefaultConstructible Z := 0.

(** The three private members of [class ringbuffer]. *)
Record ringbuffer (T : Type) : Type := Ringbuffer {
  p_buffer   : list T;   (* T* p_buffer { new T[capacity + 1]{} } *)
  m_capacity : Z;        (* std::size_t m_capacity { capacity }  *)
  m_position : Z         (* std::size_t m_position { 0 }         *)
}.

Arguments Ringbuffer {T} _ _ _.
Arguments p_buffer {T} _.
Arguments m_capacity {T} _.
Arguments m_position {T} _.

(** Checked array read [a[i]] and array write [a[i] = v]. *)
Definition buf_get {T} (i : Z) (a : list T) : option T :=
  if bool_decide (0 <= i) then a !! Z.to_nat i else None.

Definition buf_set {T} (i : Z) (v : T) (a : list T) : option (list T) :=
  if bool_decide (0 <= i < Z.of_nat (length a))
  then Some (<[Z.to_nat i := v]> a) else None.

(** Operations of the interface, used to describe runs. *)
Inductive op (T : Type) : Type :=
  | Emplace (v : T)
  | Pull
  | Reset.

Arguments Emplace {T} v.
Arguments Pull {T}.
Arguments Reset {T}.

Section Ringbuffer.
Context {T : Type} `{!DefaultConstructible T}.
Variable capacity : Z.

(** State right after the constructor: the default member initialisers.
    [capacity + 1] is a [std::size_t] expression. *)
Definition construct : ringbuffer T :=
  {| p_buffer := replicate (Z.to_nat (wrap (capacity + 1))) value_init;
     m_capacity := capacity;
     m_position := 0 |}.

(** [return capacity - m_capacity;] *)
Definition size (s : ringbuffer T) : Z := wrap (capacity - m_capacity s).

(** [return !(m_capacity != capacity);] *)
Definition is_empty (s : ringbuffer T) : bool :=
  negb (negb (m_capacity s =? capacity)).

(** [return m_capacity ? false : true;] *)
Definition is_full (s : ringbuffer T) : bool :=
  if negb (m_capacity s =? 0) then false else true.

(** [m_capacity = capacity; m_position = 0;] *)
Definition reset (s : ringbuffer T) : ringbuffer T :=
  {| p_buffer := p_buffer s; m_capacity := capacity; m_position := 0 |}.

(** [return (m_capacity ? --m_capacity : false) ? false : true;]
    The inner conditional has type [std::size_t]: its value is the
    decremented [m_capacity], or [0] when [m_capacity] was [0]. *)
Definition is_overwrite (s : ringbuffer T) : bool * ringbuffer T :=
  let '(c, s') :=
    if negb (m_capacity s =? 0)
    then let c := wrap (m_capacity s - 1) in
         (c, {| p_buffer := p_buffer s;
                m_capacity := c;
                m_position := m_position s |})
    else (0, s) in
  (if negb (c =? 0) then false else true, s').

(** [p_buffer[m_position++ % capacity] = __v; return is_overwrite();]
    The overload taking [T&&] has the same body up to [std::forward]. *)
Definition emplace (v : T) (s : ringbuffer T) : option (bool * ringbuffer T) :=
  let i := m_position s mod capacity in
  a ← buf_set i v (p_buffer s);
  Some (is_overwrite {| p_buffer := a;
                        m_capacity := m_capacity s;
                        m_position := wrap (m_position s + 1) |}).

(** The index expression of a non-empty [pull], before [% capacity]:
    [m_position + m_capacity - capacity] in [std::size_t] arithmetic. *)
Definition pull_offset (s : ringbuffer T) : Z :=
  wrap (wrap (m_position s + m_capacity s) - capacity).

(** [return p_buffer[is_empty() ? capacity
                     : (m_position + m_capacity++ - capacity) % capacity];] *)
Definition pull (s : ringbuffer T) : option (T * ringbuffer T) :=
  if is_empty s
  then v ← buf_get capacity (p_buffer s); Some (v, s)
  else
    let i := pull_offset s mod capacity in
    v ← buf_get i (p_buffer s);
    Some (v, {| p_buffer := p_buffer s;
                m_capacity := wrap (m_capacity s + 1);
                m_position := m_position s |}).

(** ** Runs *)

(** [emplace] each value of [vs] in turn; collect the boolean results. *)
Fixpoint emplace_all (vs : list T) (s : ringbuffer T)
  : option (list bool * ringbuffer T) :=
  match vs with
  | [] => Some ([], s)
  | v :: vs' =>
      '(b, s1) ← emplace v s;
      '(bs, s2) ← emplace_all vs' s1;
      Some (b :: bs, s2)
  end.

(** [pull] [n] times; collect the values read. *)
Fixpoint pull_n (n : nat) (s : ringbuffer T) : option (list T * ringbuffer T) :=
  match n with
  | O => Some ([], s)
  | S n' =>
      '(v, s1) ← pull s;
      '(vs, s2) ← pull_n n' s1;
      Some (v :: vs, s2)
  end.

(** States reachable from construction by [emplace], [pull] and [reset].
    The index counts the [emplace] calls since construction or the last
    [reset]; it is a ghost value, not stored in the object. *)
Inductive reachable : Z -> ringbuffer T -> Prop :=
  | reach_construct : reachable 0 construct
  | reach_emplace w s v b s' :
      reachable w s -> emplace v s = Some (b, s') -> reachable (w + 1) s'
  | reach_pull w s v s' :
      reachable w s -> pull s = Some (v, s') -> reachable w s'
  | reach_reset w s :
      reachable w s -> reachable 0 (reset s).

(** One call of the interface, results dropped. *)
Definition step (o : op T) (s : ringbuffer T) : option (ringbuffer T) :=
  match o with
  | Emplace v => '(_, s') ← emplace v s; Some s'
  | Pull => '(_, s') ← pull s; Some s'
  | Reset => Some (reset s)
  end.

(** A finite sequence of calls. *)
Fixpoint run (ops : list (op T)) (s : ringbuffer T) : option (ringbuffer T) :=
  match ops with
  | [] => Some s
  | o :: ops' => s' ← step o s; run ops' s'
  end.

(** ** Specification devices *)

(** The representation invariant of the class. *)
Record wf (s : ringbuffer T) : Prop := {
  wf_length : Z.of_nat (length (p_buffer s)) = capacity + 1;
  wf_capacity : 0 <= m_capacity s <= capacity;
  wf_position : 0 <= m_position s < SIZE_MOD;
  wf_sentinel : p_buffer s !! Z.to_nat capacity = Some value_init
}.

(** [window hist s]: [hist] is what has been written since [m_position]
    was last [0], nothing of it has been lost to wrap-around of
    [m_position], and the last [capacity] values of [hist] sit in the
    slots their write counts select. *)
Definition window (hist : list T) (s : ringbuffer T) : Prop :=
  m_position s = Z.of_nat (length hist) /\
  forall i : nat,
    Z.of_nat (length hist) - capacity <= Z.of_nat i < Z.of_nat (length hist) ->
    p_buffer s !! Z.to_nat (Z.of_nat i mod capacity) = hist !! i.

(** Boolean results of [n] successive writes starting with [m_capacity = c]. *)
Fixpoint overwrite_flags (c : Z) (n : nat) : list bool :=
  match n with
  | O => []
  | S n' => (c <=? 1) :: overwrite_flags (Z.max 0 (c - 1)) n'
  end.

End Ringbuffer.


(** ** The public interface as a whole *)

(** A call of one of the six public member functions, and what it returns. *)
Inductive call (T : Type) : Type :=
  | CallEmplace (v : T)
  | CallPull
  | CallSize
  | CallIsEmpty
  | CallIsFull
  | CallReset.

Arguments CallEmplace {T} v.
Arguments CallPull {T}.
Arguments CallSize {T}.
Arguments CallIsEmpty {T}.
Arguments CallIsFull {T}.
Arguments CallReset {T}.

Inductive result (T : Type) : Type :=
  | RBool (b : bool)
  | RValue (v : T)
  | RSize (n : Z)
  | RVoid.

Arguments RBool {T} b.
Arguments RValue {T} v.
Arguments RSize {T} n.
Arguments RVoid {T}.

(** One line printed by the example program of the README. *)
Inductive line (T : Type) : Type :=
  | Waiting (i : T)          (* "waiting ringbuffer to be filled -> " i *)
  | Tail (got : T) (i : T).   (* "get tail from filled ringbuffer " got
                                " while pusing -> " i *)

Arguments Waiting {T} i.
Arguments Tail {T} got i.

Section Interface.
Context {T : Type} `{!DefaultConstructible T}.
Variable capacity : Z.

Definition invoke (c : call T) (s : ringbuffer T)
  : option (result T * ringbuffer T) :=
  match c with
  | CallEmplace v => '(b, s') ← emplace capacity v s; Some (RBool b, s')
  | CallPull => '(v, s') ← pull capacity s; Some (RValue v, s')
  | CallSize => Some (RSize (size capacity s), s)
  | CallIsEmpty => Some (RBool (is_empty capacity s), s)
  | CallIsFull => Some (RBool (is_full s), s)
  | CallReset => Some (RVoid, reset capacity s)
  end.

Fixpoint invoke_all (cs : list (call T)) (s : ringbuffer T)
  : option (list (result T) * ringbuffer T) :=
  match cs with
  | [] => Some ([], s)
  | c :: cs' =>
      '(r, s1) ← invoke c s;
      '(rs, s2) ← invoke_all cs' s1;
      Some (r :: rs, s2)
  end.

(** The loop of the README's [main], over the values [vs] it pushes:
    [if (rb.emplace(i)) { ... << rb.pull() << ... << i } else { ... << i }]. *)
Fixpoint example_loop (vs : list T) (s : ringbuffer T)
  : option (list (line T) * ringbuffer T) :=
  match vs with
  | [] => Some ([], s)
  | i :: vs' =>
      match emplace capacity i s with
      | None => None
      | Some (true, s1) =>
          '(got, s2) ← pull capacity s1;
          '(ls, s3) ← example_loop vs' s2;
          Some (Tail got i :: ls, s3)
      | Some (false, s1) =>
          '(ls, s3) ← example_loop vs' s1;
          Some (Waiting i :: ls, s3)
      end
  end.

(** *** Reference model

    What the class documents itself to be: a first-in first-out queue of at
    most [capacity] values, oldest first, that drops its oldest value when
    a value is pushed on a full queue.  The boolean of a push is the one the
    code computes: whether the queue is full after the push. *)

Definition queue_emplace (v : T) (q : list T) : bool * list T :=
  let q' := (if Z.of_nat (length q) <? capacity then q else drop 1 q) ++ [v] in
  (Z.of_nat (length q') =? capacity, q').

Definition queue_pull (q : list T) : T * list T :=
  match q with
  | [] => (value_init, [])
  | x :: q' => (x, q')
  end.

Definition queue_invoke (c : call T) (q : list T) : result T * list T :=
  match c with
  | CallEmplace v => let '(b, q') := queue_emplace v q in (RBool b, q')
  | CallPull => let '(v, q') := queue_pull q in (RValue v, q')
  | CallSize => (RSize (Z.of_nat (length q)), q)
  | CallIsEmpty => (RBool (match q with [] => true | _ => false end), q)
  | CallIsFull => (RBool (Z.of_nat (length q) =? capacity), q)
  | CallReset => (RVoid, [])
  end.

Fixpoint queue_invoke_all (cs : list (call T)) (q : list T)
  : list (result T) * list T :=
  match cs with
  | [] => ([], q)
  | c :: cs' =>
      let '(r, q1) := queue_invoke c q in
      let '(rs, q2) := queue_invoke_all cs' q1 in
      (r :: rs, q2)
  end.

(** [models w q s]: the object [s], with [w] writes since construction or
    the last [reset], holds the queue [q]: its [length q] pending values
    sit, oldest first, in the slots selected by the write counts
    [w - length q .. w - 1]. *)
Definition models (w : Z) (q : list T) (s : ringbuffer T) : Prop :=
  wf capacity s /\
  m_position s = wrap w /\
  Z.of_nat (length q) = capacity - m_capacity s /\
  Z.of_nat (length q) <= w /\
  forall j : nat,
    (j < length q)%nat ->
    p_buffer s !! Z.to_nat ((w - Z.of_nat (length q) + Z.of_nat j) mod capacity)
      = q !! j.

End Interface.


(** ** Basic facts *)

Lemma wrap_small (x : Z) : 0 <= x < SIZE_MOD -> wrap x = x.
Proof. intros Hx. unfold wrap. by apply Z.mod_small. Qed.

Lemma wrap_range (x : Z) : 0 <= wrap x < SIZE_MOD.
Proof. unfold wrap. apply Z.mod_pos_bound. by unfold SIZE_MOD. Qed.

(** Two counts less than [n] apart fall into different slots. *)
Lemma mod_slot_neq (n i p : Z) :
  0 < n -> 0 < p - i < n -> i mod n <> p mod n.
Proof.
  intros Hn Hd Heq.
  assert (Hz : (p - i) mod n = 0).
  { rewrite Zminus_mod, Heq, Z.sub_diag. by apply Z.mod_0_l; lia. }
  rewrite Z.mod_small in Hz; lia.
Qed.

Section Invariant.
Context {T : Type} `{!DefaultConstructible T}.
Variable capacity : Z.

(** [static_assert(capacity >= 1UL)], and [capacity + 1] slots can be
    counted by a [std::size_t]. *)
Hypothesis capacity_ok : 1 <= capacity < SIZE_MOD - 1.

Local Abbreviation wf := (wf capacity).
Local Abbreviation window := (window capacity).

Lemma slot_range (x : Z) : 0 <= x mod capacity < capacity.
Proof. apply Z.mod_pos_bound. lia. Qed.

Lemma construct_length :
  length (p_buffer (construct capacity)) = Z.to_nat (capacity + 1).
Proof.
  simpl. rewrite length_replicate, wrap_small; [done | unfold SIZE_MOD in *; lia].
Qed.

Lemma construct_wf : wf (construct capacity).
Proof.
  split.
  - rewrite construct_length. lia.
  - simpl. lia.
  - simpl. by unfold SIZE_MOD.
  - simpl. apply lookup_replicate_2.
    rewrite wrap_small; unfold SIZE_MOD in *; lia.
Qed.

(** The effect of [emplace] in closed form, on any object whose storage
    has [capacity + 1] slots and whose [m_capacity] is a [std::size_t]. *)
Lemma emplace_eq (v : T) (s : ringbuffer T) :
  Z.of_nat (length (p_buffer s)) = capacity + 1 ->
  0 <= m_capacity s < SIZE_MOD ->
  emplace capacity v s =
    Some (m_capacity s <=? 1,
          {| p_buffer := <[Z.to_nat (m_position s mod capacity) := v]> (p_buffer s);
             m_capacity := Z.max 0 (m_capacity s - 1);
             m_position := wrap (m_position s + 1) |}).
Proof.
  intros Hlen Hcap.
  pose proof (slot_range (m_position s)) as Hi.
  unfold emplace, buf_set. rewrite bool_decide_true by lia. simpl.
  unfold is_overwrite. simpl.
  destruct (Z.eqb_spec (m_capacity s) 0) as [H0 | H0]; simpl.
  - by rewrite H0.
  - rewrite wrap_small by lia.
    replace (Z.max 0 (m_capacity s - 1)) with (m_capacity s - 1) by lia.
    destruct (Z.eqb_spec (m_capacity s - 1) 0), (Z.leb_spec (m_capacity s) 1);
      simpl; try done; lia.
Qed.

Lemma emplace_wf_eq (v : T) (s : ringbuffer T) :
  wf s ->
  emplace capacity v s =
    Some (m_capacity s <=? 1,
          {| p_buffer := <[Z.to_nat (m_position s mod capacity) := v]> (p_buffer s);
             m_capacity := Z.max 0 (m_capacity s - 1);
             m_position := wrap (m_position s + 1) |}).
Proof.
  intros [Hlen Hcap _ _]. apply emplace_eq; [done | lia].
Qed.

Lemma emplace_wf (v : T) (s : ringbuffer T) b s' :
  wf s -> emplace capacity v s = Some (b, s') -> wf s'.
Proof.
  intros Hwf. rewrite (emplace_wf_eq _ _ Hwf). intros [= _ <-].
  destruct Hwf as [Hlen Hcap Hpos Hsen].
  pose proof (slot_range (m_position s)) as Hi.
  split; simpl.
  - by rewrite length_insert.
  - lia.
  - apply wrap_range.
  - rewrite list_lookup_insert_ne by lia. done.
Qed.

(** [pull] on an empty well-formed object. *)
Lemma pull_empty_eq (s : ringbuffer T) :
  wf s -> m_capacity s = capacity -> pull capacity s = Some (value_init, s).
Proof.
  intros [Hlen Hcap Hpos Hsen] He.
  unfold pull, is_empty. rewrite He, Z.eqb_refl. simpl.
  unfold buf_get. rewrite bool_decide_true by lia. by rewrite Hsen.
Qed.

(** [pull] on a non-empty well-formed object. *)
Lemma pull_nonempty_eq (s : ringbuffer T) :
  wf s -> m_capacity s <> capacity ->
  exists v,
    p_buffer s !! Z.to_nat (pull_offset capacity s mod capacity) = Some v /\
    pull capacity s =
      Some (v, {| p_buffer := p_buffer s;
                  m_capacity := m_capacity s + 1;
                  m_position := m_position s |}).
Proof.
  intros [Hlen Hcap Hpos Hsen] Hne.
  pose proof (slot_range (pull_offset capacity s)) as Hi.
  destruct (lookup_lt_is_Some_2 (p_buffer s)
              (Z.to_nat (pull_offset capacity s mod capacity))) as [v Hv]; [lia |].
  exists v. split; [done |].
  unfold pull, is_empty.
  destruct (Z.eqb_spec (m_capacity s) capacity) as [? | _]; [done |]. simpl.
  unfold buf_get. rewrite bool_decide_true by lia. rewrite Hv. simpl.
  rewrite wrap_small by (unfold SIZE_MOD in *; lia). done.
Qed.

Lemma pull_wf (s : ringbuffer T) v s' :
  wf s -> pull capacity s = Some (v, s') -> wf s'.
Proof.
  intros Hwf Hp. destruct (decide (m_capacity s = capacity)) as [He | Hne].
  - rewrite (pull_empty_eq _ Hwf He) in Hp. by injection Hp as _ <-.
  - destruct (pull_nonempty_eq _ Hwf Hne) as (v' & _ & Heq).
    rewrite Heq in Hp. injection Hp as _ <-.
    destruct Hwf as [Hlen Hcap Hpos Hsen]. split; simpl; try done. lia.
Qed.

Lemma reset_wf (s : ringbuffer T) : wf s -> wf (reset capacity s).
Proof.
  intros [Hlen Hcap Hpos Hsen].
  split; simpl; [done | lia | by unfold SIZE_MOD | done].
Qed.

Lemma reachable_wf w s : reachable capacity w s -> wf s.
Proof.
  induction 1 as [| w s v b s' _ IH He | w s v s' _ IH Hp | w s _ IH].
  - apply construct_wf.
  - by eapply emplace_wf.
  - by eapply pull_wf.
  - by apply reset_wf.
Qed.

(** ** The written history and the slots that still hold it *)
Lemma window_nil (s : ringbuffer T) : m_position s = 0 -> window [] s.
Proof. intros Hp. split; [done |]. simpl. intros i Hi. lia. Qed.

Lemma emplace_window (hist : list T) v s b s' :
  wf s -> window hist s -> Z.of_nat (length hist) + 1 < SIZE_MOD ->
  emplace capacity v s = Some (b, s') ->
  window (hist ++ [v]) s'.
Proof.
  intros Hwf [Hpos Hwin] Hlt. rewrite (emplace_wf_eq _ _ Hwf). intros [= _ <-].
  destruct Hwf as [Hlen Hcap _ _].
  pose proof (slot_range (m_position s)) as Hi.
  split; simpl.
  - rewrite length_app. simpl. rewrite wrap_small; lia.
  - intros i. rewrite length_app. simpl. intros Hr.
    destruct (decide (i = length hist)) as [-> | Hne].
    + rewrite <- Hpos, list_lookup_insert_eq by lia.
      by rewrite list_lookup_middle.
    + pose proof (slot_range (Z.of_nat i)) as Hj.
      assert (Z.of_nat i mod capacity <> m_position s mod capacity) as Hd
        by (apply mod_slot_neq; lia).
      rewrite list_lookup_insert_ne by lia.
      rewrite lookup_app_l by lia. apply Hwin. lia.
Qed.

Lemma length_overwrite_flags (n : nat) : forall c : Z,
  length (overwrite_flags c n) = n.
Proof. induction n as [| n IH]; intros c; simpl; [done | by rewrite IH]. Qed.

Lemma overwrite_flags_lookup (n : nat) : forall (c : Z) (i : nat),
  0 <= c -> (i < n)%nat ->
  overwrite_flags c n !! i = Some (c - Z.of_nat i <=? 1).
Proof.
  induction n as [| n IH]; intros c i Hc Hi; [lia |].
  destruct i as [| i]; simpl.
  - by rewrite Z.sub_0_r.
  - rewrite IH by lia. f_equal.
    destruct (Z.leb_spec (Z.max 0 (c - 1) - Z.of_nat i) 1),
             (Z.leb_spec (c - Z.of_nat (S i)) 1); try done; lia.
Qed.

Lemma overwrite_flags_fill (n : nat) :
  overwrite_flags (Z.of_nat (S n)) (S n) = replicate n false ++ [true].
Proof.
  induction n as [| n IH]; [done |].
  change (overwrite_flags (Z.of_nat (S (S n))) (S (S n)))
    with ((Z.of_nat (S (S n)) <=? 1)
            :: overwrite_flags (Z.max 0 (Z.of_nat (S (S n)) - 1)) (S n)).
  replace (Z.max 0 (Z.of_nat (S (S n)) - 1)) with (Z.of_nat (S n)) by lia.
  rewrite IH. simpl replicate. simpl app. f_equal.
  apply Z.leb_gt. lia.
Qed.

(** A run of writes: it never gets stuck, [m_capacity] goes down to [0]
    and stays there, and the history grows by the values written. *)
Lemma emplace_all_window (vs : list T) : forall (hist : list T) s,
  wf s -> window hist s ->
  Z.of_nat (length hist) + Z.of_nat (length vs) < SIZE_MOD ->
  exists s',
    emplace_all capacity vs s
      = Some (overwrite_flags (m_capacity s) (length vs), s') /\
    wf s' /\ window (hist ++ vs) s' /\
    m_capacity s' = Z.max 0 (m_capacity s - Z.of_nat (length vs)).
Proof.
  induction vs as [| v vs IH]; intros hist s Hwf Hwin Hlt.
  - exists s. simpl. rewrite app_nil_r. destruct (wf_capacity _ _ Hwf).
    split_and!; [done | done | done | lia].
  - simpl in Hlt.
    pose proof (emplace_wf_eq v s Hwf) as He.
    set (s1 := {| p_buffer := <[Z.to_nat (m_position s mod capacity) := v]> (p_buffer s);
                  m_capacity := Z.max 0 (m_capacity s - 1);
                  m_position := wrap (m_position s + 1) |}) in He.
    assert (wf s1) as Hwf1 by exact (emplace_wf v s _ s1 Hwf He).
    assert (window (hist ++ [v]) s1) as Hwin1
      by (apply (emplace_window hist v s (m_capacity s <=? 1) s1 Hwf Hwin);
          [lia | exact He]).
    destruct (IH (hist ++ [v]) s1 Hwf1 Hwin1) as (s' & Hrun & Hwf' & Hwin' & Hcap').
    { rewrite length_app. simpl. lia. }
    exists s'. simpl. rewrite He. simpl. rewrite Hrun. simpl.
    rewrite <- app_assoc in Hwin'. split_and!; [done | done | done |].
    rewrite Hcap'. simpl. lia.
Qed.

Lemma pull_offset_eq (s : ringbuffer T) :
  0 <= m_position s + m_capacity s - capacity < SIZE_MOD ->
  pull_offset capacity s = m_position s + m_capacity s - capacity.
Proof.
  intros Hr. unfold pull_offset, wrap.
  rewrite Zminus_mod_idemp_l. by apply Z.mod_small.
Qed.

(** A run of reads that does not exhaust the pending values returns them
    oldest first. *)
Lemma pull_n_window (hist : list T) (n : nat) : forall s,
  wf s -> window hist s -> Z.of_nat (length hist) < SIZE_MOD ->
  Z.of_nat n <= capacity - m_capacity s <= Z.of_nat (length hist) ->
  exists s',
    pull_n capacity n s
      = Some (take n (drop (Z.to_nat (Z.of_nat (length hist)
                                        - (capacity - m_capacity s))) hist), s') /\
    p_buffer s' = p_buffer s /\
    m_capacity s' = m_capacity s + Z.of_nat n /\
    m_position s' = m_position s.
Proof.
  induction n as [| n IH]; intros s Hwf Hwin Hlt Hn.
  - exists s. simpl. split_and!; [done | done | lia | done].
  - destruct (pull_nonempty_eq s Hwf) as (v & Hv & Hp); [lia |].
    set (s1 := {| p_buffer := p_buffer s;
                  m_capacity := m_capacity s + 1;
                  m_position := m_position s |}) in Hp.
    assert (wf s1) as Hwf1 by exact (pull_wf s v s1 Hwf Hp).
    assert (window hist s1) as Hwin1 by done.
    destruct (IH s1 Hwf1 Hwin1 Hlt) as (s' & Hrun & Hb & Hc & Hpos);
      [simpl; lia |].
    exists s'. simpl. rewrite Hp. simpl. rewrite Hrun. simpl.
    split_and!; [| done | rewrite Hc; simpl; lia | done].
    do 2 f_equal.
    destruct Hwin as [Hpos0 Hwin]. pose proof (wf_capacity _ _ Hwf) as Hcap.
    set (o := Z.of_nat (length hist) - (capacity - m_capacity s)).
    rewrite pull_offset_eq in Hv by lia.
    replace (m_position s + m_capacity s - capacity) with (Z.of_nat (Z.to_nat o)) in Hv
      by (unfold o; lia).
    rewrite Hwin in Hv by (unfold o; lia).
    rewrite (drop_S _ _ _ Hv). simpl.
    replace (S (Z.to_nat o))
      with (Z.to_nat (Z.of_nat (length hist) - (capacity - (m_capacity s + 1))))
      by (unfold o; lia).
    done.
Qed.

(** ** The ghost write count *)

(** With [w] writes since construction or the last [reset]: at most [w]
    values are pending, and [m_position] is [w] reduced modulo [SIZE_MOD]. *)
Lemma reachable_writes w s :
  reachable capacity w s ->
  0 <= w /\ capacity - m_capacity s <= w /\ m_position s = wrap w.
Proof.
  induction 1 as [| w s v b s' Hr (Hw & Hpend & Hpos) He
                  | w s v s' Hr (Hw & Hpend & Hpos) Hp
                  | w s Hr _].
  - simpl. split_and!; [done | lia | done].
  - pose proof (reachable_wf _ _ Hr) as Hwf.
    rewrite (emplace_wf_eq _ _ Hwf) in He. injection He as _ <-. simpl.
    split_and!; [lia | lia |].
    rewrite Hpos. unfold wrap. by rewrite Zplus_mod_idemp_l.
  - pose proof (reachable_wf _ _ Hr) as Hwf.
    destruct (decide (m_capacity s = capacity)) as [He | Hne].
    + rewrite (pull_empty_eq _ Hwf He) in Hp. by injection Hp as _ <-.
    + destruct (pull_nonempty_eq _ Hwf Hne) as (v' & _ & Heq).
      rewrite Heq in Hp. injection Hp as _ <-. simpl.
      split_and!; [done | lia | done].
  - simpl. split_and!; [done | lia | done].
Qed.

(** No operation gets stuck on a reachable object: every array access of
    [emplace] and [pull] is inside the allocated storage. *)
Lemma reachable_emplace_defined w s (v : T) :
  reachable capacity w s -> exists b s', emplace capacity v s = Some (b, s').
Proof.
  intros Hr. rewrite (emplace_wf_eq _ _ (reachable_wf _ _ Hr)). eauto.
Qed.

Lemma reachable_pull_defined w s :
  reachable capacity w s -> exists v s', pull capacity s = Some (v, s').
Proof.
  intros Hr. pose proof (reachable_wf _ _ Hr) as Hwf.
  destruct (decide (m_capacity s = capacity)) as [He | Hne].
  - rewrite (pull_empty_eq _ Hwf He). eauto.
  - destruct (pull_nonempty_eq _ Hwf Hne) as (v & _ & ->). eauto.
Qed.

(** [w] writes of [T{}] into a new object leave the storage as it was. *)
Lemma reachable_after_writes (w : Z) :
  0 <= w ->
  reachable capacity w
    {| p_buffer := replicate (Z.to_nat (capacity + 1)) value_init;
       m_capacity := Z.max 0 (capacity - w);
       m_position := wrap w |}.
Proof.
  revert w. apply natlike_ind.
  - replace (Z.max 0 (capacity - 0)) with capacity by lia.
    pose proof reach_construct capacity as Hc. unfold construct in Hc.
    rewrite (wrap_small (capacity + 1)) in Hc by lia. exact Hc.
  - intros w Hw IH. unfold Z.succ.
    eapply reach_emplace with (v := value_init); [exact IH |].
    rewrite (emplace_wf_eq _ _ (reachable_wf _ _ IH)). simpl.
    rewrite insert_replicate. do 2 f_equal. f_equal; [lia |].
    unfold wrap. by rewrite Zplus_mod_idemp_l.
Qed.

Lemma size_eq (s : ringbuffer T) :
  wf s -> size capacity s = capacity - m_capacity s.
Proof. intros [_ Hcap _ _]. unfold size. apply wrap_small. lia. Qed.

Lemma is_empty_eq (s : ringbuffer T) :
  is_empty capacity s = true <-> m_capacity s = capacity.
Proof. unfold is_empty. rewrite negb_involutive. apply Z.eqb_eq. Qed.

Lemma is_full_eq (s : ringbuffer T) :
  is_full s = true <-> m_capacity s = 0.
Proof. unfold is_full. by destruct (Z.eqb_spec (m_capacity s) 0). Qed.

(** Runs stay among the reachable objects and never get stuck. *)
Lemma run_reachable (ops : list (op T)) : forall w s,
  reachable capacity w s ->
  exists w' s', run capacity ops s = Some s' /\ reachable capacity w' s'.
Proof.
  induction ops as [| o ops IH]; intros w s Hr; [by exists w, s |].
  destruct o as [v | |]; simpl.
  - destruct (reachable_emplace_defined w s v Hr) as (b & s1 & He).
    rewrite He. simpl. apply (IH (w + 1)). by eapply reach_emplace.
  - destruct (reachable_pull_defined w s Hr) as (v & s1 & Hp).
    rewrite Hp. simpl. apply (IH w). by eapply reach_pull.
  - apply (IH 0). by eapply reach_reset.
Qed.

(** Writing [vs] into an object whose cursors are in their initial
    position and then reading as many values as are pending returns the
    last [capacity] values written, oldest first; what the storage held
    before does not matter. *)
Lemma write_then_read (vs : list T) (n : nat) (s0 : ringbuffer T) :
  wf s0 -> m_position s0 = 0 -> m_capacity s0 = capacity ->
  Z.of_nat (length vs) < SIZE_MOD ->
  Z.of_nat n = Z.min (Z.of_nat (length vs)) capacity ->
  exists s1 s2,
    emplace_all capacity vs s0
      = Some (overwrite_flags capacity (length vs), s1) /\
    pull_n capacity n s1 = Some (drop (length vs - n) vs, s2).
Proof.
  intros Hwf Hpos Hcap Hlt Hn.
  destruct (emplace_all_window vs [] s0 Hwf (window_nil _ Hpos))
    as (s1 & Hrun & Hwf1 & Hwin1 & Hcap1); [simpl; lia |].
  rewrite Hcap in Hrun, Hcap1. simpl in Hwin1.
  destruct (pull_n_window vs n s1 Hwf1 Hwin1 Hlt) as (s2 & Hpull & _); [lia |].
  exists s1, s2. split; [done |]. rewrite Hpull. do 2 f_equal.
  replace (Z.to_nat (Z.of_nat (length vs) - (capacity - m_capacity s1)))
    with (length vs - n)%nat by lia.
  apply take_ge. rewrite length_drop. lia.
Qed.

End Invariant.

(** ** Properties of the specification *)

Section Properties.
Context {T : Type} `{!DefaultConstructible T}.
Variable capacity : Z.
Hypothesis capacity_ok : 1 <= capacity < SIZE_MOD - 1.

(** C1 (FIFO order under no overflow): writing [v1..vk], [k <= capacity],
    into a newly constructed buffer with [emplace] and then calling [pull]
    [k] times returns [v1..vk] in that order. *)
Theorem fifo_order_without_overflow (vs : list T) :
  Z.of_nat (length vs) <= capacity ->
  exists bs s1 s2,
    emplace_all capacity vs (construct capacity) = Some (bs, s1) /\
    pull_n capacity (length vs) s1 = Some (vs, s2).
Proof.
  intros Hk.
  destruct (write_then_read capacity capacity_ok vs (length vs)
              (construct capacity)) as (s1 & s2 & Hw & Hr);
    [by apply construct_wf | done | done | lia | lia |].
  rewrite Nat.sub_diag in Hr. eauto.
Qed.

(** C2 (overwrite semantics): writing [capacity + 1] values
    [v1, v2..v(N+1)] into a newly constructed buffer and then reading
    [capacity] times returns [v2..v(N+1)] in order, [v1] is lost, and the
    last write returns [true]. *)
Theorem overwrite_drops_oldest (v1 : T) (rest : list T) :
  Z.of_nat (length rest) = capacity ->
  exists bs s1 s2,
    emplace_all capacity (v1 :: rest) (construct capacity) = Some (bs, s1) /\
    length bs = S (length rest) /\
    bs !! length rest = Some true /\
    pull_n capacity (length rest) s1 = Some (rest, s2).
Proof.
  intros Hn.
  destruct (write_then_read capacity capacity_ok (v1 :: rest) (length rest)
              (construct capacity)) as (s1 & s2 & Hw & Hr);
    [by apply construct_wf | done | done | simpl; lia | simpl; lia |].
  exists (overwrite_flags capacity (length (v1 :: rest))), s1, s2.
  split_and!; [done | | |].
  - apply length_overwrite_flags.
  - rewrite overwrite_flags_lookup by (simpl; lia).
    f_equal. apply Z.leb_le. lia.
  - replace (length (v1 :: rest) - length rest)%nat with 1%nat in Hr
      by (simpl; lia).
    exact Hr.
Qed.

(** C3 (update of the free slack and the fill-boundary flag): on every
    object with its [capacity + 1] slots, [emplace] decrements a positive
    [m_capacity] and returns [false] exactly when the decremented value is
    still nonzero; it returns [true] when the decrement reaches [0] and
    when [m_capacity] was [0] already, which it leaves at [0].  On a newly
    constructed buffer the first [capacity] writes return [false]
    [capacity - 1] times and then [true]. *)
Theorem emplace_result_and_free_slack :
  (forall (v : T) (s : ringbuffer T),
      Z.of_nat (length (p_buffer s)) = capacity + 1 ->
      0 <= m_capacity s < SIZE_MOD ->
      exists b s',
        emplace capacity v s = Some (b, s') /\
        (0 < m_capacity s ->
           m_capacity s' = m_capacity s - 1 /\
           (b = false <-> m_capacity s' <> 0) /\
           (b = true <-> m_capacity s' = 0)) /\
        (m_capacity s = 0 -> m_capacity s' = 0 /\ b = true)) /\
  (forall vs : list T,
      Z.of_nat (length vs) = capacity ->
      exists s',
        emplace_all capacity vs (construct capacity)
          = Some (replicate (length vs - 1) false ++ [true], s')).
Proof.
  split.
  - intros v s Hlen Hcap. rewrite (emplace_eq capacity capacity_ok v s Hlen Hcap).
    eexists _, _. split; [done |]. simpl.
    destruct (Z.leb_spec (m_capacity s) 1); split; intros H0;
      split_and?; try done; lia.
  - intros vs Hn.
    destruct (emplace_all_window capacity capacity_ok vs [] (construct capacity))
      as (s' & Hrun & _); [by apply construct_wf | by apply window_nil | simpl; lia |].
    exists s'. rewrite Hrun. do 2 f_equal. simpl m_capacity.
    destruct (length vs) as [| n] eqn:Hl; [lia |].
    rewrite <- Hn, overwrite_flags_fill. by rewrite Nat.sub_1_r.
Qed.

(** C4 (empty read): on every reachable object that is empty ([size] is
    [0]), [pull] returns the default-constructed value and the object is
    unchanged, cursors and storage alike; so it is right after construction
    and right after a [reset]. *)
Theorem pull_empty_returns_default w (s : ringbuffer T) :
  reachable capacity w s ->
  (size capacity s = 0 -> pull capacity s = Some (value_init, s)) /\
  pull capacity (reset capacity s) = Some (value_init, reset capacity s) /\
  pull capacity (construct capacity) = Some (value_init, construct capacity).
Proof.
  intros Hr. pose proof (reachable_wf capacity capacity_ok w s Hr) as Hwf.
  split_and!.
  - intros Hs. rewrite (size_eq capacity capacity_ok s Hwf) in Hs.
    apply pull_empty_eq; [done | done | lia].
  - apply pull_empty_eq; [done | by apply reset_wf | done].
  - apply pull_empty_eq; [done | by apply construct_wf | done].
Qed.

(** C5 (bounded size): every finite sequence of calls of [emplace], [pull]
    (and [reset]) on a newly constructed buffer runs to its end, and
    [size] is then within [0, capacity]. *)
Theorem size_bounded (ops : list (op T)) :
  exists s,
    run capacity ops (construct capacity) = Some s /\
    0 <= size capacity s <= capacity.
Proof.
  destruct (run_reachable capacity capacity_ok ops 0 (construct capacity))
    as (w & s & Hrun & Hr); [apply reach_construct |].
  exists s. split; [done |].
  pose proof (reachable_wf capacity capacity_ok w s Hr) as Hwf.
  rewrite (size_eq capacity capacity_ok s Hwf).
  destruct (wf_capacity _ _ Hwf). lia.
Qed.

(** C6 (empty/full duality): in every reachable state [is_empty] holds
    exactly when [size] is [0] and [is_full] exactly when [size] is
    [capacity]. *)
Theorem empty_full_duality w (s : ringbuffer T) :
  reachable capacity w s ->
  (is_empty capacity s = true <-> size capacity s = 0) /\
  (is_full s = true <-> size capacity s = capacity).
Proof.
  intros Hr. pose proof (reachable_wf capacity capacity_ok w s Hr) as Hwf.
  rewrite (size_eq capacity capacity_ok s Hwf), is_empty_eq, is_full_eq.
  lia.
Qed.

(** C7 (reset): [reset] sets [m_capacity] to [capacity] and [m_position]
    to [0] and keeps the storage; after it, [capacity] writes followed by
    [capacity] reads give the boolean results and the values that the same
    calls give on a newly constructed buffer, the values read being the
    ones just written. *)
Theorem reset_reproduces_fresh w (s : ringbuffer T) (vs : list T) :
  reachable capacity w s ->
  Z.of_nat (length vs) = capacity ->
  m_capacity (reset capacity s) = capacity /\
  m_position (reset capacity s) = 0 /\
  p_buffer (reset capacity s) = p_buffer s /\
  exists bs s1 s2 t1 t2,
    emplace_all capacity vs (reset capacity s) = Some (bs, s1) /\
    pull_n capacity (length vs) s1 = Some (vs, s2) /\
    emplace_all capacity vs (construct capacity) = Some (bs, t1) /\
    pull_n capacity (length vs) t1 = Some (vs, t2).
Proof.
  intros Hr Hn. split_and!; [done | done | done |].
  pose proof (reachable_wf capacity capacity_ok w s Hr) as Hwf.
  destruct (write_then_read capacity capacity_ok vs (length vs)
              (reset capacity s)) as (s1 & s2 & Hw1 & Hr1);
    [by apply reset_wf | done | done | lia | lia |].
  destruct (write_then_read capacity capacity_ok vs (length vs)
              (construct capacity)) as (t1 & t2 & Hw2 & Hr2);
    [by apply construct_wf | done | done | lia | lia |].
  rewrite Nat.sub_diag in Hr1, Hr2.
  exists (overwrite_flags capacity (length vs)), s1, s2, t1, t2. done.
Qed.

(** C8 (sentinel slot): in every reachable state slot [capacity] of the
    storage holds the default-constructed value; [emplace] never stores
    into that slot, whatever the object; and [pull] on an empty reachable
    object returns the default value. *)
Theorem sentinel_slot_preserved w (s : ringbuffer T) :
  reachable capacity w s ->
  p_buffer s !! Z.to_nat capacity = Some value_init /\
  (forall (v : T) (s0 : ringbuffer T) b s0',
      emplace capacity v s0 = Some (b, s0') ->
      p_buffer s0' !! Z.to_nat capacity = p_buffer s0 !! Z.to_nat capacity) /\
  (is_empty capacity s = true ->
     exists s', pull capacity s = Some (value_init, s')).
Proof.
  intros Hr. pose proof (reachable_wf capacity capacity_ok w s Hr) as Hwf.
  split_and!.
  - by destruct Hwf.
  - intros v s0 b s0'. unfold emplace, buf_set.
    pose proof (slot_range capacity capacity_ok (m_position s0)) as Hi.
    case_bool_decide; [| done]. simpl. unfold is_overwrite. simpl.
    destruct (negb (m_capacity s0 =? 0)); intros [= _ <-]; simpl;
      apply list_lookup_insert_ne; lia.
  - intros He. exists s. apply pull_empty_eq; [done | done |].
    by apply is_empty_eq.
Qed.

(** C9, as the code has it: in every reachable state the number of
    pending values is at most the number [w] of writes since the last
    [reset]; as long as [w] is below [2^64], [m_position + m_capacity -
    capacity] is non-negative and the [std::size_t] expression of [pull]
    has that value; and the slot index [pull] derives from it is within
    [0, capacity - 1] in any case. *)
Theorem pending_bounded_by_writes w (s : ringbuffer T) :
  reachable capacity w s ->
  capacity - m_capacity s <= w /\
  (w < SIZE_MOD ->
     0 <= m_position s + m_capacity s - capacity /\
     pull_offset capacity s = m_position s + m_capacity s - capacity) /\
  0 <= pull_offset capacity s mod capacity <= capacity - 1.
Proof.
  intros Hr. pose proof (reachable_wf capacity capacity_ok w s Hr) as Hwf.
  destruct (reachable_writes capacity capacity_ok w s Hr) as (Hw & Hpend & Hpos).
  destruct (wf_capacity _ _ Hwf) as [Hc0 Hc1].
  split; [done | split].
  - intros Hlt. rewrite wrap_small in Hpos by lia.
    split; [lia |]. apply pull_offset_eq. lia.
  - pose proof (slot_range capacity capacity_ok (pull_offset capacity s)). lia.
Qed.

End Properties.

(** C10: for every capacity of at least [1], no state reachable from
    construction by [emplace], [pull] and [reset] is both empty and full. *)
Theorem not_empty_and_full {T : Type} `{!DefaultConstructible T}
    (capacity : Z) w (s : ringbuffer T) :
  1 <= capacity ->
  reachable capacity w s ->
  ~ (is_empty capacity s = true /\ is_full s = true).
Proof.
  intros Hpos _ [He Hf]. apply is_empty_eq in He. apply is_full_eq in Hf. lia.
Qed.

(** ** Concrete instances: [ubn::ringbuffer<int, 3>] *)

Lemma capacity_3_ok : 1 <= 3 < SIZE_MOD - 1.
Proof. unfold SIZE_MOD. lia. Qed.

(** The scenario of the specification: three writes fill the buffer, three
    reads drain it in order, a fourth read returns the default value. *)
Example scenario_fill_and_drain :
  emplace_all 3 [1; 2; 3] (construct 3)
    = Some ([false; false; true],
            {| p_buffer := [1; 2; 3; 0]; m_capacity := 0; m_position := 3 |}) /\
  pull_n 3 4 {| p_buffer := [1; 2; 3; 0]; m_capacity := 0; m_position := 3 |}
    = Some ([1; 2; 3; 0],
            {| p_buffer := [1; 2; 3; 0]; m_capacity := 3; m_position := 3 |}).
Proof. split; reflexivity. Qed.

(** Writes on a full buffer return [true] and evict the oldest value. *)
Example scenario_overwrite :
  emplace_all 3 [4; 5; 6; 7]
    {| p_buffer := [1; 2; 3; 0]; m_capacity := 3; m_position := 3 |}
    = Some ([false; false; true; true],
            {| p_buffer := [7; 5; 6; 0]; m_capacity := 0; m_position := 7 |}) /\
  pull_n 3 3 {| p_buffer := [7; 5; 6; 0]; m_capacity := 0; m_position := 7 |}
    = Some ([5; 6; 7],
            {| p_buffer := [7; 5; 6; 0]; m_capacity := 3; m_position := 7 |}).
Proof. split; reflexivity. Qed.

(** Why [capacity] must stay below [SIZE_MAX]: there [capacity + 1] wraps
    to [0], no slot is allocated, and the first write is out of bounds. *)
Example max_capacity_has_no_storage :
  p_buffer (construct (T := Z) (SIZE_MOD - 1)) = [] /\
  emplace (SIZE_MOD - 1) 5 (construct (SIZE_MOD - 1)) = None.
Proof. split; reflexivity. Qed.

(** After [emplace(7)], [emplace(8)], [pull()]: one value pending. *)
Lemma reachable_one_pending :
  reachable 3 2 {| p_buffer := [7; 8; 0; 0]; m_capacity := 2; m_position := 2 |}.
Proof.
  apply (reach_pull 3 2
           {| p_buffer := [7; 8; 0; 0]; m_capacity := 1; m_position := 2 |} 7);
    [| reflexivity].
  apply (reach_emplace 3 1
           {| p_buffer := [7; 0; 0; 0]; m_capacity := 2; m_position := 1 |} 8 false);
    [| reflexivity].
  apply (reach_emplace 3 0 (construct 3) 7 false); [| reflexivity].
  apply reach_construct.
Qed.

(** After [emplace(7)], [pull()]: empty again, slot [0] still holds [7]. *)
Lemma reachable_drained :
  reachable 3 1 {| p_buffer := [7; 0; 0; 0]; m_capacity := 3; m_position := 1 |}.
Proof.
  apply (reach_pull 3 1
           {| p_buffer := [7; 0; 0; 0]; m_capacity := 2; m_position := 1 |} 7);
    [| reflexivity].
  apply (reach_emplace 3 0 (construct 3) 7 false); [| reflexivity].
  apply reach_construct.
Qed.

(** After three writes: full. *)
Lemma reachable_full :
  reachable 3 3 {| p_buffer := [1; 2; 3; 0]; m_capacity := 0; m_position := 3 |}.
Proof.
  apply (reach_emplace 3 2
           {| p_buffer := [1; 2; 0; 0]; m_capacity := 1; m_position := 2 |} 3 true);
    [| reflexivity].
  apply (reach_emplace 3 1
           {| p_buffer := [1; 0; 0; 0]; m_capacity := 2; m_position := 1 |} 2 false);
    [| reflexivity].
  apply (reach_emplace 3 0 (construct 3) 1 false); [| reflexivity].
  apply reach_construct.
Qed.

(** After [2^64] writes of [0] into a new buffer of capacity [3] the write
    count stored in [m_position] has wrapped around to [0]. *)
Lemma reachable_wrapped :
  reachable 3 SIZE_MOD
    {| p_buffer := [0; 0; 0; 0]; m_capacity := 0; m_position := 0 |}.
Proof.
  exact (reachable_after_writes (T := Z) 3 capacity_3_ok SIZE_MOD
           ltac:(by unfold SIZE_MOD)).
Qed.

(** C1 at [N = 3], [k = 2]. *)
Lemma fifo_order_without_overflow_witness :
  1 <= 3 < SIZE_MOD - 1 /\
  Z.of_nat (length [10; 20]) <= 3 /\
  exists bs s1 s2,
    emplace_all 3 [10; 20] (construct 3) = Some (bs, s1) /\
    pull_n 3 (length [10; 20]) s1 = Some ([10; 20], s2).
Proof.
  assert (1 <= 3 < SIZE_MOD - 1) as H3 by (unfold SIZE_MOD; lia).
  assert (Z.of_nat (length [10; 20]) <= 3) as Hk by (simpl; lia).
  exact (conj H3 (conj Hk (fifo_order_without_overflow 3 H3 [10; 20] Hk))).
Defined.

(** C2 at [N = 3]. *)
Lemma overwrite_drops_oldest_witness :
  1 <= 3 < SIZE_MOD - 1 /\
  Z.of_nat (length [20; 30; 40]) = 3 /\
  exists bs s1 s2,
    emplace_all 3 (10 :: [20; 30; 40]) (construct 3) = Some (bs, s1) /\
    length bs = S (length [20; 30; 40]) /\
    bs !! length [20; 30; 40] = Some true /\
    pull_n 3 (length [20; 30; 40]) s1 = Some ([20; 30; 40], s2).
Proof.
  assert (1 <= 3 < SIZE_MOD - 1) as H3 by (unfold SIZE_MOD; lia).
  assert (Z.of_nat (length [20; 30; 40]) = 3) as Hn by reflexivity.
  exact (conj H3 (conj Hn (overwrite_drops_oldest 3 H3 10 [20; 30; 40] Hn))).
Defined.

(** C3 at [N = 3]: one write into a buffer with one free slot, and the
    three writes that fill a new buffer. *)
Lemma emplace_result_and_free_slack_witness :
  1 <= 3 < SIZE_MOD - 1 /\
  (exists b s',
      emplace 3 9 {| p_buffer := [1; 2; 0; 0]; m_capacity := 1; m_position := 2 |}
        = Some (b, s') /\ m_capacity s' = 0 /\ b = true) /\
  (exists s',
      emplace_all 3 [1; 2; 3] (construct 3) = Some ([false; false; true], s')).
Proof.
  assert (1 <= 3 < SIZE_MOD - 1) as H3 by (unfold SIZE_MOD; lia).
  destruct (emplace_result_and_free_slack (T := Z) 3 H3) as [Hstep Hfill].
  split; [exact H3 | split].
  - destruct (Hstep 9 {| p_buffer := [1; 2; 0; 0]; m_capacity := 1; m_position := 2 |})
      as (b & s' & He & Hpos & _); [reflexivity | simpl; unfold SIZE_MOD; lia |].
    exists b, s'. split; [exact He |].
    destruct (Hpos ltac:(simpl; lia)) as (Hc & _ & Hb).
    split; [exact Hc |]. apply Hb. exact Hc.
  - exact (Hfill [1; 2; 3] eq_refl).
Defined.

(** C4 on the drained buffer: slot [0] holds [7], the read returns [0]. *)
Lemma pull_empty_returns_default_witness :
  let s := {| p_buffer := [7; 0; 0; 0]; m_capacity := 3; m_position := 1 |} in
  1 <= 3 < SIZE_MOD - 1 /\ reachable 3 1 s /\ size 3 s = 0 /\
  pull 3 s = Some (0, s).
Proof.
  intros s.
  assert (1 <= 3 < SIZE_MOD - 1) as H3 by (unfold SIZE_MOD; lia).
  split; [exact H3 | split; [exact reachable_drained | split; [reflexivity |]]].
  exact (proj1 (pull_empty_returns_default 3 H3 1 s reachable_drained) eq_refl).
Defined.

(** C5 on a run that overflows the buffer and then reads. *)
Lemma size_bounded_witness :
  1 <= 3 < SIZE_MOD - 1 /\
  exists s,
    run 3 [Emplace 1; Emplace 2; Emplace 3; Emplace 4; Pull] (construct 3) = Some s /\
    0 <= size 3 s <= 3.
Proof.
  assert (1 <= 3 < SIZE_MOD - 1) as H3 by (unfold SIZE_MOD; lia).
  exact (conj H3 (size_bounded 3 H3
                    [Emplace 1; Emplace 2; Emplace 3; Emplace 4; Pull])).
Defined.

(** C6 on the full buffer. *)
Lemma empty_full_duality_witness :
  let s := {| p_buffer := [1; 2; 3; 0]; m_capacity := 0; m_position := 3 |} in
  1 <= 3 < SIZE_MOD - 1 /\ reachable 3 3 s /\
  (is_empty 3 s = true <-> size 3 s = 0) /\
  (is_full s = true <-> size 3 s = 3).
Proof.
  intros s.
  assert (1 <= 3 < SIZE_MOD - 1) as H3 by (unfold SIZE_MOD; lia).
  exact (conj H3 (conj reachable_full
                    (empty_full_duality 3 H3 3 s reachable_full))).
Defined.

(** C7: a reset of the full buffer, then three writes and three reads. *)
Lemma reset_reproduces_fresh_witness :
  let s := {| p_buffer := [1; 2; 3; 0]; m_capacity := 0; m_position := 3 |} in
  1 <= 3 < SIZE_MOD - 1 /\ reachable 3 3 s /\
  Z.of_nat (length [4; 5; 6]) = 3 /\
  m_capacity (reset 3 s) = 3 /\
  m_position (reset 3 s) = 0 /\
  p_buffer (reset 3 s) = p_buffer s /\
  exists bs s1 s2 t1 t2,
    emplace_all 3 [4; 5; 6] (reset 3 s) = Some (bs, s1) /\
    pull_n 3 (length [4; 5; 6]) s1 = Some ([4; 5; 6], s2) /\
    emplace_all 3 [4; 5; 6] (construct 3) = Some (bs, t1) /\
    pull_n 3 (length [4; 5; 6]) t1 = Some ([4; 5; 6], t2).
Proof.
  intros s.
  assert (1 <= 3 < SIZE_MOD - 1) as H3 by (unfold SIZE_MOD; lia).
  exact (conj H3 (conj reachable_full (conj eq_refl
           (reset_reproduces_fresh 3 H3 3 s [4; 5; 6] reachable_full eq_refl)))).
Defined.

(** C8 on the buffer with one value pending. *)
Lemma sentinel_slot_preserved_witness :
  let s := {| p_buffer := [7; 8; 0; 0]; m_capacity := 2; m_position := 2 |} in
  1 <= 3 < SIZE_MOD - 1 /\ reachable 3 2 s /\
  p_buffer s !! Z.to_nat 3 = Some 0.
Proof.
  intros s.
  assert (1 <= 3 < SIZE_MOD - 1) as H3 by (unfold SIZE_MOD; lia).
  exact (conj H3 (conj reachable_one_pending
           (proj1 (sentinel_slot_preserved 3 H3 2 s reachable_one_pending)))).
Defined.

(** C9, as the code has it, on the buffer with one value pending. *)
Lemma pending_bounded_by_writes_witness :
  let s := {| p_buffer := [7; 8; 0; 0]; m_capacity := 2; m_position := 2 |} in
  1 <= 3 < SIZE_MOD - 1 /\ reachable 3 2 s /\
  3 - m_capacity s <= 2 /\
  (2 < SIZE_MOD ->
     0 <= m_position s + m_capacity s - 3 /\
     pull_offset 3 s = m_position s + m_capacity s - 3) /\
  0 <= pull_offset 3 s mod 3 <= 3 - 1.
Proof.
  intros s.
  assert (1 <= 3 < SIZE_MOD - 1) as H3 by (unfold SIZE_MOD; lia).
  exact (conj H3 (conj reachable_one_pending
           (pending_bounded_by_writes 3 H3 2 s reachable_one_pending))).
Defined.

(** C10 on the full buffer. *)
Lemma not_empty_and_full_witness :
  let s := {| p_buffer := [1; 2; 3; 0]; m_capacity := 0; m_position := 3 |} in
  1 <= 3 /\ reachable 3 3 s /\
  ~ (is_empty 3 s = true /\ is_full s = true).
Proof.
  intros s.
  assert (1 <= 3) as H3 by lia.
  exact (conj H3 (conj reachable_full
                    (not_empty_and_full 3 3 s H3 reachable_full))).
Defined.

(** C9 as stated fails once [m_position] has wrapped around: after [2^64]
    writes of [0] into a new buffer of capacity [3] the buffer is full,
    [m_position] and [m_capacity] are both [0], [m_position + m_capacity -
    capacity] is [-3], and the [std::size_t] expression of [pull] underflows
    to [2^64 - 3]. *)
Lemma pull_offset_underflows_after_wrap :
  let s := {| p_buffer := [0; 0; 0; 0]; m_capacity := 0; m_position := 0 |} in
  reachable 3 SIZE_MOD s /\
  is_empty 3 s = false /\
  m_position s + m_capacity s - 3 < 0 /\
  pull_offset 3 s = SIZE_MOD - 3 /\
  ~ (forall w (s' : ringbuffer Z),
        reachable 3 w s' -> is_empty 3 s' = false ->
        0 <= m_position s' + m_capacity s' - 3).
Proof.
  intros s. split_and!.
  - exact reachable_wrapped.
  - reflexivity.
  - simpl. lia.
  - reflexivity.
  - intros Hclaim.
    pose proof (Hclaim SIZE_MOD s reachable_wrapped eq_refl) as Hneg.
    simpl in Hneg. lia.
Qed.

(** ** The ring buffer as a bounded queue *)

Section Refinement.
Context {T : Type} `{!DefaultConstructible T}.
Variable capacity : Z.
Hypothesis capacity_ok : 1 <= capacity < SIZE_MOD - 1.

Local Abbreviation models := (models capacity).

(** A write count selects the slot the stored, wrapped count selects, as
    long as the count has not wrapped or [capacity] divides [2^64]. *)
Lemma wrap_slot (w x : Z) :
  w < SIZE_MOD \/ (capacity | SIZE_MOD) ->
  0 <= x <= w ->
  wrap x mod capacity = x mod capacity.
Proof.
  intros [Hlt | Hdiv] Hx.
  - rewrite wrap_small; [done | lia].
  - unfold wrap. by apply Z.mod_mod_divide.
Qed.

Lemma models_construct : models 0 [] (construct capacity).
Proof.
  split; [by apply construct_wf |].
  split_and!; [done | simpl; lia | done |].
  intros j Hj. simpl in Hj. lia.
Qed.

Lemma models_reset (s : ringbuffer T) :
  wf capacity s -> models 0 [] (reset capacity s).
Proof.
  intros Hwf. split; [by apply reset_wf |].
  split_and!; [done | simpl; lia | done |].
  intros j Hj. simpl in Hj. lia.
Qed.

Lemma models_reachable w q s : models w q s -> 0 <= w.
Proof. intros (_ & _ & _ & Hle & _). lia. Qed.

(** [emplace] pushes on the queue. *)
Lemma models_emplace w q s (v : T) b q' :
  models w q s ->
  w < SIZE_MOD \/ (capacity | SIZE_MOD) ->
  queue_emplace capacity v q = (b, q') ->
  exists s', emplace capacity v s = Some (b, s') /\ models (w + 1) q' s'.
Proof.
  intros (Hwf & Hpos & Hlen & Hle & Hslots) Hf Hq.
  pose proof (wf_capacity _ _ Hwf) as Hcap.
  pose proof (wf_length _ _ Hwf) as Hbuf.
  pose proof (emplace_wf_eq capacity capacity_ok v s Hwf) as He.
  set (s' := {| p_buffer := <[Z.to_nat (m_position s mod capacity) := v]> (p_buffer s);
                m_capacity := Z.max 0 (m_capacity s - 1);
                m_position := wrap (m_position s + 1) |}) in He.
  assert (Hslot : m_position s mod capacity = w mod capacity)
    by (rewrite Hpos; apply (wrap_slot w); [done | lia]).
  pose proof (slot_range capacity capacity_ok w) as Hw.
  (* the queue after the push, as a suffix of the old one plus [v] *)
  set (k := if Z.of_nat (length q) <? capacity then 0%nat else 1%nat).
  unfold queue_emplace in Hq. injection Hq as Hb Hq0. rewrite Hq0 in Hb.
  assert (Hq' : q' = drop k q ++ [v]).
  { rewrite <- Hq0. unfold k. by destruct (Z.of_nat (length q) <? capacity). }
  assert (Hk : (k = 0%nat /\ Z.of_nat (length q) < capacity) \/
               (k = 1%nat /\ Z.of_nat (length q) = capacity)).
  { unfold k. destruct (Z.ltb_spec (Z.of_nat (length q)) capacity); lia. }
  assert (Hlen' : Z.of_nat (length q') = Z.of_nat (length q) - Z.of_nat k + 1).
  { rewrite Hq', length_app, length_drop. simpl. lia. }
  exists s'. split.
  - rewrite He, <- Hb, Hlen'. do 2 f_equal.
    destruct (Z.leb_spec (m_capacity s) 1),
             (Z.eqb_spec (Z.of_nat (length q) - Z.of_nat k + 1) capacity);
      try done; lia.
  - split; [exact (emplace_wf capacity capacity_ok v s _ s' Hwf He) |].
    split_and!.
    + simpl. rewrite Hpos. unfold wrap. by rewrite Zplus_mod_idemp_l.
    + simpl. lia.
    + lia.
    + intros j Hj. simpl p_buffer. rewrite Hslot.
      destruct (decide (j = length (drop k q))) as [-> | Hne].
      * rewrite Hq', list_lookup_middle by done.
        replace (w + 1 - Z.of_nat (length (drop k q ++ [v]))
                 + Z.of_nat (length (drop k q))) with w
          by (rewrite length_app; simpl; lia).
        apply list_lookup_insert_eq. lia.
      * assert (j < length (drop k q))%nat as Hj'
          by (rewrite Hq', length_app in Hj; simpl in Hj; lia).
        rewrite length_drop in Hj'.
        assert ((w + 1 - Z.of_nat (length q') + Z.of_nat j) mod capacity
                <> w mod capacity) as Hd by (apply mod_slot_neq; lia).
        pose proof (slot_range capacity capacity_ok
                      (w + 1 - Z.of_nat (length q') + Z.of_nat j)) as Hi.
        rewrite list_lookup_insert_ne by lia.
        rewrite Hq', lookup_app_l by (rewrite length_drop; lia).
        rewrite lookup_drop, <- (Hslots (k + j)%nat) by lia.
        rewrite <- Hq'. do 3 f_equal. lia.
Qed.

(** [pull] pops the queue, or returns the default value on the empty one. *)
Lemma models_pull w q s x q' :
  models w q s ->
  w < SIZE_MOD \/ (capacity | SIZE_MOD) ->
  queue_pull q = (x, q') ->
  exists s', pull capacity s = Some (x, s') /\ models w q' s'.
Proof.
  intros (Hwf & Hpos & Hlen & Hle & Hslots) Hf Hq.
  pose proof (wf_capacity _ _ Hwf) as Hcap.
  destruct q as [| y q0]; simpl in Hq; injection Hq as <- <-.
  - exists s. split; [| done].
    apply pull_empty_eq; [done | done | simpl in Hlen; lia].
  - simpl length in *.
    destruct (pull_nonempty_eq capacity capacity_ok s Hwf) as (v & Hv & Hp); [lia |].
    assert (Hoff : pull_offset capacity s mod capacity
                   = (w - Z.of_nat (S (length q0))) mod capacity).
    { rewrite <- (wrap_slot w (w - Z.of_nat (S (length q0)))) by (done || lia).
      f_equal. unfold pull_offset, wrap.
      rewrite Zminus_mod_idemp_l, Hpos. unfold wrap.
      rewrite <- Z.add_sub_assoc, Zplus_mod_idemp_l. f_equal. lia. }
    rewrite Hoff in Hv.
    pose proof (Hslots 0%nat ltac:(lia)) as H0. simpl in H0.
    rewrite Z.add_0_r in H0. rewrite H0 in Hv. injection Hv as ->.
    eexists. split; [exact Hp |].
    split; [exact (pull_wf capacity capacity_ok s v _ Hwf Hp) |].
    split_and!; [done | simpl; lia | lia |].
    intros j Hj. simpl p_buffer.
    etrans; [| exact (Hslots (S j) ltac:(lia))].
    do 3 f_equal. lia.
Qed.

(** The three observers read the queue off the cursors. *)
Lemma models_observers w q s :
  models w q s ->
  size capacity s = Z.of_nat (length q) /\
  is_empty capacity s = match q with [] => true | _ => false end /\
  is_full s = (Z.of_nat (length q) =? capacity).
Proof.
  intros (Hwf & _ & Hlen & _ & _).
  pose proof (wf_capacity _ _ Hwf) as Hcap.
  split_and!.
  - rewrite (size_eq capacity capacity_ok s Hwf). lia.
  - unfold is_empty. rewrite negb_involutive.
    destruct q; simpl in Hlen;
      destruct (Z.eqb_spec (m_capacity s) capacity); try done; lia.
  - unfold is_full.
    destruct (Z.eqb_spec (m_capacity s) 0),
             (Z.eqb_spec (Z.of_nat (length q)) capacity); simpl; try done; lia.
Qed.

(** One call, whichever it is. *)
Lemma models_invoke (c : call T) w q s r q' :
  models w q s ->
  w < SIZE_MOD \/ (capacity | SIZE_MOD) ->
  queue_invoke capacity c q = (r, q') ->
  exists w' s',
    invoke capacity c s = Some (r, s') /\ models w' q' s' /\ w' <= w + 1.
Proof.
  intros Hm Hf Hq.
  pose proof (models_reachable _ _ _ Hm) as Hw.
  destruct (models_observers _ _ _ Hm) as (Hsz & Hem & Hfu).
  destruct c as [v | | | | |]; cbn [queue_invoke invoke] in *.
  - destruct (queue_emplace capacity v q) as [b q1] eqn:E. injection Hq as <- <-.
    destruct (models_emplace w q s v b q1 Hm Hf E) as (s' & -> & Hm').
    exists (w + 1), s'. split_and!; [done | done | lia].
  - destruct (queue_pull q) as [x q1] eqn:E. injection Hq as <- <-.
    destruct (models_pull w q s x q1 Hm Hf E) as (s' & -> & Hm').
    exists w, s'. split_and!; [done | done | lia].
  - injection Hq as <- <-. exists w, s. rewrite Hsz. split_and!; [done | done | lia].
  - injection Hq as <- <-. exists w, s. rewrite Hem. split_and!; [done | done | lia].
  - injection Hq as <- <-. exists w, s. rewrite Hfu. split_and!; [done | done | lia].
  - injection Hq as <- <-. exists 0, (reset capacity s).
    split_and!; [done | | lia]. apply models_reset. by destruct Hm.
Qed.

(** A sequence of calls. *)
Lemma models_invoke_all (cs : list (call T)) : forall w q s rs q',
  models w q s ->
  w + Z.of_nat (length cs) <= SIZE_MOD \/ (capacity | SIZE_MOD) ->
  queue_invoke_all capacity cs q = (rs, q') ->
  exists w' s',
    invoke_all capacity cs s = Some (rs, s') /\ models w' q' s'.
Proof.
  induction cs as [| c cs IH]; intros w q s rs q' Hm Hf Hq; simpl in *.
  - injection Hq as <- <-. by exists w, s.
  - destruct (queue_invoke capacity c q) as [r q1] eqn:E1.
    destruct (queue_invoke_all capacity cs q1) as [rs1 q2] eqn:E2.
    injection Hq as <- <-.
    destruct (models_invoke c w q s r q1 Hm) as (w1 & s1 & -> & Hm1 & Hw1);
      [destruct Hf; [left; lia | by right] | done |].
    destruct (IH w1 q1 s1 rs1 q2 Hm1) as (w2 & s2 & Hrun & Hm2);
      [destruct Hf; [left; lia | by right] | done |].
    exists w2, s2. simpl. rewrite Hrun. done.
Qed.

End Refinement.

(** ** Further properties of the interface *)

Section Interface_properties.
Context {T : Type} `{!DefaultConstructible T}.
Variable capacity : Z.
Hypothesis capacity_ok : 1 <= capacity < SIZE_MOD - 1.

(** X1: on a newly constructed buffer, any sequence of at most [2^64] calls
    of the six public member functions returns, call by call, what the
    bounded queue returns, and no call leaves the storage. *)
Theorem behaves_as_bounded_queue (cs : list (call T)) :
  Z.of_nat (length cs) <= SIZE_MOD ->
  exists s,
    invoke_all capacity cs (construct capacity)
      = Some ((queue_invoke_all capacity cs []).1, s).
Proof.
  intros Hlen.
  destruct (queue_invoke_all capacity cs []) as [rs q'] eqn:E.
  destruct (models_invoke_all capacity capacity_ok cs 0 [] (construct capacity) rs q')
    as (w' & s' & Hrun & _);
    [by apply models_construct | left; lia | done |].
  by exists s'.
Qed.

(** X2: when [capacity] divides [2^64] (a power of two), the same holds for
    sequences of any length: wrap-around of [m_position] is harmless. *)
Theorem behaves_as_bounded_queue_forever (cs : list (call T)) :
  (capacity | SIZE_MOD) ->
  exists s,
    invoke_all capacity cs (construct capacity)
      = Some ((queue_invoke_all capacity cs []).1, s).
Proof.
  intros Hdiv.
  destruct (queue_invoke_all capacity cs []) as [rs q'] eqn:E.
  destruct (models_invoke_all capacity capacity_ok cs 0 [] (construct capacity) rs q')
    as (w' & s' & Hrun & _);
    [by apply models_construct | by right | done |].
  by exists s'.
Qed.

(** X3: after [reset] of any reachable object, any sequence of at most
    [2^64] calls returns what it returns on a newly constructed buffer:
    nothing the storage held before the [reset] can be observed. *)
Theorem reset_is_as_new w (s : ringbuffer T) (cs : list (call T)) :
  reachable capacity w s ->
  Z.of_nat (length cs) <= SIZE_MOD ->
  exists rs s1 s2,
    invoke_all capacity cs (reset capacity s) = Some (rs, s1) /\
    invoke_all capacity cs (construct capacity) = Some (rs, s2).
Proof.
  intros Hr Hlen.
  pose proof (reachable_wf capacity capacity_ok w s Hr) as Hwf.
  destruct (queue_invoke_all capacity cs []) as [rs q'] eqn:E.
  destruct (models_invoke_all capacity capacity_ok cs 0 [] (reset capacity s) rs q')
    as (w1 & s1 & Hrun1 & _);
    [by apply models_reset | left; lia | done |].
  destruct (models_invoke_all capacity capacity_ok cs 0 [] (construct capacity) rs q')
    as (w2 & s2 & Hrun2 & _);
    [by apply models_construct | left; lia | done |].
  by exists rs, s1, s2.
Qed.

(** X4: how the calls move [size] on a reachable object: [emplace] adds one
    up to [capacity] and returns whether the buffer is full afterwards,
    [pull] takes one away down to [0], [reset] sets it to [0]. *)
Theorem size_after_calls w (s : ringbuffer T) :
  reachable capacity w s ->
  (forall v : T, exists b s',
      emplace capacity v s = Some (b, s') /\
      size capacity s' = Z.min capacity (size capacity s + 1) /\
      b = is_full s') /\
  (exists v s',
      pull capacity s = Some (v, s') /\
      size capacity s' = Z.max 0 (size capacity s - 1)) /\
  size capacity (reset capacity s) = 0.
Proof.
  intros Hr.
  pose proof (reachable_wf capacity capacity_ok w s Hr) as Hwf.
  pose proof (wf_capacity _ _ Hwf) as Hcap.
  pose proof (size_eq capacity capacity_ok s Hwf) as Hsz.
  split_and!.
  - intros v.
    pose proof (emplace_wf_eq capacity capacity_ok v s Hwf) as He.
    eexists _, _. split; [exact He |].
    rewrite (size_eq capacity capacity_ok _
               (emplace_wf capacity capacity_ok v s _ _ Hwf He)), Hsz.
    simpl. split; [lia |]. unfold is_full. simpl.
    destruct (Z.leb_spec (m_capacity s) 1),
             (Z.eqb_spec (Z.max 0 (m_capacity s - 1)) 0); simpl; try done; lia.
  - destruct (reachable_pull_defined capacity capacity_ok w s Hr) as (v & s' & Hp).
    exists v, s'. split; [done |].
    rewrite (size_eq capacity capacity_ok _
               (pull_wf capacity capacity_ok s v s' Hwf Hp)), Hsz.
    destruct (decide (m_capacity s = capacity)) as [He | Hne].
    + rewrite (pull_empty_eq capacity capacity_ok s Hwf He) in Hp.
      injection Hp as _ <-. lia.
    + destruct (pull_nonempty_eq capacity capacity_ok s Hwf Hne) as (v' & _ & Heq).
      rewrite Heq in Hp. injection Hp as _ <-. simpl. lia.
  - rewrite (size_eq capacity capacity_ok _ (reset_wf capacity capacity_ok s Hwf)).
    simpl. lia.
Qed.

(** X5: writing any number [k < 2^64] of values into a newly constructed
    buffer never fails; the [i]-th write (from [0]) returns [true] exactly
    when [capacity <= i + 1]; and reading [min k capacity] times afterwards
    returns the last [min k capacity] values written, oldest first, and
    leaves the buffer empty. *)
Theorem latest_values_survive (vs : list T) (n : nat) :
  Z.of_nat (length vs) < SIZE_MOD ->
  Z.of_nat n = Z.min (Z.of_nat (length vs)) capacity ->
  exists bs s1 s2,
    emplace_all capacity vs (construct capacity) = Some (bs, s1) /\
    length bs = length vs /\
    (forall i : nat, (i < length vs)%nat ->
       bs !! i = Some (capacity <=? Z.of_nat i + 1)) /\
    pull_n capacity n s1 = Some (drop (length vs - n) vs, s2) /\
    is_empty capacity s2 = true.
Proof.
  intros Hlt Hn.
  destruct (emplace_all_window capacity capacity_ok vs [] (construct capacity))
    as (s1 & Hrun & Hwf1 & Hwin1 & Hcap1);
    [by apply construct_wf | by apply window_nil | simpl; lia |].
  simpl in Hrun, Hwin1, Hcap1.
  destruct (pull_n_window capacity capacity_ok vs n s1 Hwf1 Hwin1 Hlt)
    as (s2 & Hpull & _ & Hcap2 & _); [lia |].
  exists (overwrite_flags capacity (length vs)), s1, s2.
  split_and!; [done | apply length_overwrite_flags | | |].
  - intros i Hi. rewrite overwrite_flags_lookup by lia.
    f_equal.
    destruct (Z.leb_spec (capacity - Z.of_nat i) 1),
             (Z.leb_spec capacity (Z.of_nat i + 1)); try done; lia.
  - rewrite Hpull. do 2 f_equal.
    replace (Z.to_nat (Z.of_nat (length vs) - (capacity - m_capacity s1)))
      with (length vs - n)%nat by lia.
    apply take_ge. rewrite length_drop. lia.
  - apply is_empty_eq. lia.
Qed.

(** The loop of the README from any state that models a queue with room for
    [d + 1] more values. *)
Lemma example_loop_models (vs : list T) : forall (d : nat) w q s,
  models capacity w q s ->
  Z.of_nat d + Z.of_nat (length q) = capacity - 1 ->
  w + Z.of_nat (length vs) < SIZE_MOD ->
  exists s',
    example_loop capacity vs s
      = Some (map Waiting (take d vs) ++ zip_with Tail (q ++ vs) (drop d vs), s').
Proof.
  induction vs as [| v vs IH]; intros d w q s Hm Hd Hlt.
  - exists s. simpl. by rewrite take_nil, drop_nil, zip_with_nil_r.
  - simpl in Hlt. cbn [example_loop].
    pose proof (models_reachable capacity w q s Hm) as Hw.
    assert (Hlen : (Z.of_nat (length q) <? capacity) = true)
      by (apply Z.ltb_lt; lia).
    destruct d as [| d].
    + (* the buffer is one short of full: this write fills it *)
      assert (Hq : queue_emplace capacity v q = (true, q ++ [v])).
      { unfold queue_emplace. rewrite Hlen, length_app. simpl.
        f_equal. apply Z.eqb_eq. lia. }
      destruct (models_emplace capacity capacity_ok w q s v true (q ++ [v]) Hm)
        as (s1 & -> & Hm1); [left; lia | done |].
      destruct (q ++ [v]) as [| x q2] eqn:Eq; [by destruct q |].
      destruct (models_pull capacity capacity_ok (w + 1) (x :: q2) s1 x q2 Hm1)
        as (s2 & -> & Hm2); [left; lia | done |]. simpl.
      assert (Z.of_nat (length q2) = capacity - 1) as Hl2.
      { apply (f_equal length) in Eq. rewrite length_app in Eq. simpl in Eq. lia. }
      destruct (IH 0%nat (w + 1) q2 s2 Hm2) as (s3 & ->); [lia | lia |].
      exists s3. simpl. rewrite !drop_0.
      by rewrite (cons_middle v q vs), app_assoc, Eq.
    + (* still filling *)
      assert (Hq : queue_emplace capacity v q = (false, q ++ [v])).
      { unfold queue_emplace. rewrite Hlen, length_app. simpl.
        f_equal. apply Z.eqb_neq. lia. }
      destruct (models_emplace capacity capacity_ok w q s v false (q ++ [v]) Hm)
        as (s1 & -> & Hm1); [left; lia | done |].
      destruct (IH d (w + 1) (q ++ [v]) s1 Hm1) as (s3 & ->);
        [rewrite length_app; simpl; lia | lia |].
      exists s3. simpl. by rewrite <- app_assoc.
Qed.

(** X6: the example program of the README, pushing the values [vs] (fewer
    than [2^64]) into a new buffer, is a delay line: it prints "waiting" for
    the first [capacity - 1] values, and from then on each value pushed
    comes with the value pushed [capacity - 1] steps before it. *)
Theorem example_loop_is_delay_line (vs : list T) :
  Z.of_nat (length vs) < SIZE_MOD ->
  exists s,
    example_loop capacity vs (construct capacity)
      = Some (map Waiting (take (Z.to_nat (capacity - 1)) vs)
                ++ zip_with Tail vs (drop (Z.to_nat (capacity - 1)) vs), s).
Proof.
  intros Hlt.
  apply (example_loop_models vs (Z.to_nat (capacity - 1)) 0 [] (construct capacity));
    [by apply models_construct | simpl; lia | lia].
Qed.

End Interface_properties.

(** X7: the capacity [SIZE_MAX] passes the [static_assert], but
    [capacity + 1] wraps to [0]: the constructor allocates no slot, and the
    first [emplace] as well as the first [pull] are out of bounds. *)
Theorem max_capacity_out_of_bounds {T : Type} `{!DefaultConstructible T} (v : T) :
  1 <= SIZE_MOD - 1 < SIZE_MOD /\
  p_buffer (construct (T := T) (SIZE_MOD - 1)) = [] /\
  emplace (SIZE_MOD - 1) v (construct (SIZE_MOD - 1)) = None /\
  pull (SIZE_MOD - 1) (construct (T := T) (SIZE_MOD - 1)) = None.
Proof.
  split_and!; [by unfold SIZE_MOD | by unfold SIZE_MOD | | |]; reflexivity.
Qed.

(** X8: the bound of X1 is needed when [capacity] does not divide [2^64].
    With [capacity = 3], after [2^64 - 1] writes of the default value the
    buffer holds three of them; the next write stores [a] in slot [0] and
    wraps [m_position] to [0], so the write after it stores [b] in slot [0]
    again.  Three reads then return the default value, [b] and [b]: [a] is
    never returned and [b] is returned twice, where the queue returns the
    default value, [a] and [b]. *)
Theorem fifo_order_lost_after_wrap {T : Type} `{!DefaultConstructible T} (a b : T) :
  let s := {| p_buffer := replicate 4 value_init;
              m_capacity := 0;
              m_position := SIZE_MOD - 1 |} in
  let q := replicate 3 value_init in
  let cs := [CallEmplace a; CallEmplace b; CallPull; CallPull; CallPull] in
  reachable 3 (SIZE_MOD - 1) s /\
  models 3 (SIZE_MOD - 1) q s /\
  invoke_all 3 cs s
    = Some ([RBool true; RBool true; RValue value_init; RValue b; RValue b],
            {| p_buffer := [b; value_init; value_init; value_init];
               m_capacity := 3;
               m_position := 1 |}) /\
  (queue_invoke_all 3 cs q).1
    = [RBool true; RBool true; RValue value_init; RValue a; RValue b].
Proof.
  intros s q cs.
  assert (Hr : reachable 3 (SIZE_MOD - 1) s).
  { exact (reachable_after_writes (T := T) 3 capacity_3_ok (SIZE_MOD - 1)
             ltac:(by unfold SIZE_MOD)). }
  split_and!; [exact Hr | | reflexivity | reflexivity].
  split; [exact (reachable_wf 3 capacity_3_ok _ _ Hr) |].
  split_and!; [reflexivity | reflexivity | by unfold SIZE_MOD |].
  intros [| [| [| j]]] Hj; [reflexivity | reflexivity | reflexivity |].
  simpl in Hj. lia.
Qed.

(** X1 at [N = 3], on a sequence that uses all six calls. *)
Lemma behaves_as_bounded_queue_witness :
  let cs := [CallEmplace 1; CallSize; CallEmplace 2; CallEmplace 3;
             CallEmplace 4; CallIsFull; CallPull; CallReset; CallPull;
             CallIsEmpty] in
  1 <= 3 < SIZE_MOD - 1 /\
  Z.of_nat (length cs) <= SIZE_MOD /\
  exists s, invoke_all 3 cs (construct 3) = Some ((queue_invoke_all 3 cs []).1, s).
Proof.
  intros cs.
  assert (1 <= 3 < SIZE_MOD - 1) as H3 by (unfold SIZE_MOD; lia).
  assert (Z.of_nat (length cs) <= SIZE_MOD) as Hl by (simpl; unfold SIZE_MOD; lia).
  exact (conj H3 (conj Hl (behaves_as_bounded_queue 3 H3 cs Hl))).
Defined.

(** X2 at [N = 4 = 2^2]. *)
Lemma behaves_as_bounded_queue_forever_witness :
  let cs := [CallEmplace 1; CallEmplace 2; CallPull; CallEmplace 3;
             CallEmplace 4; CallEmplace 5; CallEmplace 6; CallPull] in
  1 <= 4 < SIZE_MOD - 1 /\
  (4 | SIZE_MOD) /\
  exists s, invoke_all 4 cs (construct 4) = Some ((queue_invoke_all 4 cs []).1, s).
Proof.
  intros cs.
  assert (1 <= 4 < SIZE_MOD - 1) as H4 by (unfold SIZE_MOD; lia).
  assert (4 | SIZE_MOD) as Hd by (exists 4611686018427387904; reflexivity).
  exact (conj H4 (conj Hd (behaves_as_bounded_queue_forever 4 H4 cs Hd))).
Defined.

(** X3: a reset of the full buffer, then a read, a write and a read. *)
Lemma reset_is_as_new_witness :
  let s := {| p_buffer := [1; 2; 3; 0]; m_capacity := 0; m_position := 3 |} in
  let cs := [CallPull; CallEmplace 9; CallPull] in
  1 <= 3 < SIZE_MOD - 1 /\ reachable 3 3 s /\
  Z.of_nat (length cs) <= SIZE_MOD /\
  exists rs s1 s2,
    invoke_all 3 cs (reset 3 s) = Some (rs, s1) /\
    invoke_all 3 cs (construct 3) = Some (rs, s2).
Proof.
  intros s cs.
  assert (1 <= 3 < SIZE_MOD - 1) as H3 by (unfold SIZE_MOD; lia).
  assert (Z.of_nat (length cs) <= SIZE_MOD) as Hl by (simpl; unfold SIZE_MOD; lia).
  exact (conj H3 (conj reachable_full (conj Hl
           (reset_is_as_new 3 H3 3 s cs reachable_full Hl)))).
Defined.

(** X4 on the buffer with one value pending. *)
Lemma size_after_calls_witness :
  let s := {| p_buffer := [7; 8; 0; 0]; m_capacity := 2; m_position := 2 |} in
  1 <= 3 < SIZE_MOD - 1 /\ reachable 3 2 s /\
  (forall v : Z, exists b s',
      emplace 3 v s = Some (b, s') /\
      size 3 s' = Z.min 3 (size 3 s + 1) /\
      b = is_full s') /\
  (exists v s',
      pull 3 s = Some (v, s') /\ size 3 s' = Z.max 0 (size 3 s - 1)) /\
  size 3 (reset 3 s) = 0.
Proof.
  intros s.
  assert (1 <= 3 < SIZE_MOD - 1) as H3 by (unfold SIZE_MOD; lia).
  exact (conj H3 (conj reachable_one_pending
           (size_after_calls 3 H3 2 s reachable_one_pending))).
Defined.

(** X5 at [N = 3] with five values: the last three survive. *)
Lemma latest_values_survive_witness :
  1 <= 3 < SIZE_MOD - 1 /\
  Z.of_nat (length [1; 2; 3; 4; 5]) < SIZE_MOD /\
  Z.of_nat 3 = Z.min (Z.of_nat (length [1; 2; 3; 4; 5])) 3 /\
  exists bs s1 s2,
    emplace_all 3 [1; 2; 3; 4; 5] (construct 3) = Some (bs, s1) /\
    length bs = length [1; 2; 3; 4; 5] /\
    (forall i : nat, (i < length [1; 2; 3; 4; 5])%nat ->
       bs !! i = Some (3 <=? Z.of_nat i + 1)) /\
    pull_n 3 3 s1 = Some (drop (length [1; 2; 3; 4; 5] - 3) [1; 2; 3; 4; 5], s2) /\
    is_empty 3 s2 = true.
Proof.
  assert (1 <= 3 < SIZE_MOD - 1) as H3 by (unfold SIZE_MOD; lia).
  assert (Z.of_nat (length [1; 2; 3; 4; 5]) < SIZE_MOD) as Hl
    by (simpl; unfold SIZE_MOD; lia).
  assert (Z.of_nat 3 = Z.min (Z.of_nat (length [1; 2; 3; 4; 5])) 3) as Hn
    by reflexivity.
  exact (conj H3 (conj Hl (conj Hn
           (latest_values_survive 3 H3 [1; 2; 3; 4; 5] 3 Hl Hn)))).
Defined.

(** X6 on the README's own program: [ubn::ringbuffer<int, 3>], [i] from [1]
    to [9]. *)
Lemma example_loop_is_delay_line_witness :
  let vs := [1; 2; 3; 4; 5; 6; 7; 8; 9] in
  1 <= 3 < SIZE_MOD - 1 /\
  Z.of_nat (length vs) < SIZE_MOD /\
  exists s,
    example_loop 3 vs (construct 3)
      = Some (map Waiting (take (Z.to_nat (3 - 1)) vs)
                ++ zip_with Tail vs (drop (Z.to_nat (3 - 1)) vs), s).
Proof.
  intros vs.
  assert (1 <= 3 < SIZE_MOD - 1) as H3 by (unfold SIZE_MOD; lia).
  assert (Z.of_nat (length vs) < SIZE_MOD) as Hl by (simpl; unfold SIZE_MOD; lia).
  exact (conj H3 (conj Hl (example_loop_is_delay_line 3 H3 vs Hl))).
Defined.

(** What the README's program prints. *)
Example example_main_output :
  fst <$> example_loop 3 [1; 2; 3; 4; 5; 6; 7; 8; 9] (construct 3)
    = Some [Waiting 1; Waiting 2; Tail 1 3; Tail 2 4; Tail 3 5; Tail 4 6;
            Tail 5 7; Tail 6 8; Tail 7 9].
Proof. reflexivity. Qed.
